(** * p7z2tar: the chunk-bounded reader, the metadata mapper and the
      pipeline orchestrator of [p7z2tar.py], embedded and verified.

    Python integers are unbounded, so they are [Z]; [bytes] objects are
    lists of [Byte.byte]; the iterator handed to [ArchiveEntryBlocks] is the
    list of chunks it has not yielded yet; exceptions are an explicit
    outcome. *)

From Stdlib Require Import ZArith List Strings.String Strings.Ascii Strings.Byte Lia Bool.
From stdpp Require Import base option list gmap sets strings.

Local Open Scope Z_scope.

(** ** Outcomes of Python code *)

Inductive exn : Type :=
| TypeError
| OSError
| ArchiveError.

(** [OutOfFuel] is an artefact of the bounded unrolling of [while]; the
    lemma [read_loop_terminates] shows [read] never produces it. *)
Inductive result (A : Type) : Type :=
| Ok (a : A)
| Raise (e : exn)
| OutOfFuel.

Arguments Ok {A} a.
Arguments Raise {A} e.
Arguments OutOfFuel {A}.

#[global] Instance result_ret : MRet result := fun _ a => Ok a.
#[global] Instance result_bind : MBind result := fun _ _ f m =>
  match m with
  | Ok a => f a
  | Raise e => Raise e
  | OutOfFuel => OutOfFuel
  end.
#[global] Instance result_fmap : FMap result := fun _ _ f m =>
  match m with
  | Ok a => Ok (f a)
  | Raise e => Raise e
  | OutOfFuel => OutOfFuel
  end.

(** ** Python [bytes] and slicing *)

Definition bytes : Type := list byte.

Definition len (b : bytes) : Z := Z.of_nat (length b).

(** [b''.join(parts)] *)
Definition join (parts : list bytes) : bytes := concat parts.

(** How Python turns a slice bound into a position of a sequence of length
    [n]: a negative bound counts from the end, and everything is clamped to
    [0..n]. *)
Definition slice_index (n i : Z) : Z :=
  if i <? 0 then Z.max (i + n) 0 else Z.min i n.

(** [b[start:stop]] with unit step; [None] is an omitted bound. *)
Definition py_slice (b : bytes) (start stop : option Z) : bytes :=
  let lo := match start with Some i => slice_index (len b) i | None => 0 end in
  let hi := match stop with Some j => slice_index (len b) j | None => len b end in
  take (Z.to_nat (hi - lo)) (drop (Z.to_nat lo) b).

(** ** [class ArchiveEntryBlocks] *)

Record ArchiveEntryBlocks : Type := mkArchiveEntryBlocks {
  blocks : list bytes;        (* chunks the iterator has not yielded yet *)
  curr_block : option bytes;  (* [None] is Python's None *)
  cursor : option Z
}.

(** [ArchiveEntryBlocks.__init__] *)
Definition init (blks : list bytes) : ArchiveEntryBlocks :=
  {| blocks := blks; curr_block := None; cursor := None |}.

Definition set_cursor (self : ArchiveEntryBlocks) (c : option Z)
  : ArchiveEntryBlocks :=
  {| blocks := blocks self; curr_block := curr_block self; cursor := c |}.

(** [ArchiveEntryBlocks._read_all]: [b''.join(self.blocks)] runs the
    iterator to its end; [curr_block] and [cursor] are not looked at. *)
Definition _read_all (self : ArchiveEntryBlocks)
  : result (bytes * ArchiveEntryBlocks) :=
  Ok (join (blocks self),
      {| blocks := []; curr_block := curr_block self; cursor := cursor self |}).

(** Lines 60-71: the part of the loop body after [prev_cursor] is known.
    Slicing [None] raises [TypeError]. *)
Definition consume (size : Z) (self : ArchiveEntryBlocks)
    (retrieved_size prev_cursor : Z)
  : result (option (ArchiveEntryBlocks * bytes * Z)) :=
  let c := retrieved_size + prev_cursor - size in
  match curr_block self with
  | None => Raise TypeError
  | Some b =>
      if c <=? 0 then
        Ok (Some (set_cursor self None,
                  py_slice b (Some (- prev_cursor)) None,
                  retrieved_size + prev_cursor))
      else
        Ok (Some (set_cursor self (Some c),
                  py_slice b (Some (- prev_cursor)) (Some (- c)),
                  retrieved_size + (prev_cursor - c)))
  end.

(** One iteration of the [while] body (lines 52-71). [Ok None] is the
    [break] on [StopIteration]; otherwise the new reader, the piece appended
    to [cbuf] and the new [retrieved_size]. *)
Definition loop_body (size : Z) (self : ArchiveEntryBlocks)
    (retrieved_size : Z)
  : result (option (ArchiveEntryBlocks * bytes * Z)) :=
  match cursor self with
  | None =>
      match blocks self with
      | [] => Ok None
      | b :: rest =>
          consume size
            {| blocks := rest; curr_block := Some b; cursor := None |}
            retrieved_size (len b)
      end
  | Some prev_cursor => consume size self retrieved_size prev_cursor
  end.

(** [while retrieved_size < size: ...] *)
Fixpoint read_loop (fuel : nat) (size : Z) (self : ArchiveEntryBlocks)
    (cbuf : list bytes) (retrieved_size : Z)
  : result (ArchiveEntryBlocks * list bytes) :=
  if retrieved_size <? size then
    match fuel with
    | O => OutOfFuel
    | S fuel' =>
        step ← loop_body size self retrieved_size;
        match step with
        | None => Ok (self, cbuf)
        | Some (self', piece, retrieved_size') =>
            read_loop fuel' size self' (cbuf ++ [piece]) retrieved_size'
        end
    end
  else Ok (self, cbuf).

(** Iterations the loop can need: one for a held chunk, one per chunk left,
    one to see [StopIteration]. *)
Definition read_fuel (self : ArchiveEntryBlocks) : nat :=
  S (S (length (blocks self))).

(** [ArchiveEntryBlocks.read]; the argument [None] is Python's None. *)
Definition read (size : option Z) (self : ArchiveEntryBlocks)
  : result (bytes * ArchiveEntryBlocks) :=
  let size := match size with None => -1 | Some n => n end in
  if size <? 0 then _read_all self
  else if size =? 0 then Ok ([], self)
  else
    '(self', cbuf) ← read_loop (read_fuel self) size self [] 0;
    Ok (join cbuf, self').

(** [read()] with the default argument. *)
Definition read_default : ArchiveEntryBlocks -> result (bytes * ArchiveEntryBlocks) :=
  read (Some (-1)).

(** Successive [read] calls on one reader, results in call order. *)
Fixpoint reads (sizes : list (option Z)) (self : ArchiveEntryBlocks)
  : result (list bytes * ArchiveEntryBlocks) :=
  match sizes with
  | [] => Ok ([], self)
  | size :: sizes' =>
      '(r, self') ← read size self;
      '(rs, self'') ← reads sizes' self';
      Ok (r :: rs, self'')
  end.

(** ** [tarinfo_from_libarchive_entry] *)

(** A libarchive entry, as far as the program looks at it: [str(entry)] is
    its [pathname]; [mtime] is None when the archive does not record one;
    [get_blocks] lists the chunks [entry.get_blocks()] yields. *)
Module Entry.
Record t : Type := mk {
  pathname : string;
  size : Z;
  mtime : option Z;
  mode : Z;
  get_blocks : list bytes
}.
End Entry.

(** The fields of [tarfile.TarInfo] the program assigns. *)
Module TarInfo.
Record t : Type := mk {
  name : string;
  mode : Z;
  size : Z;
  mtime : Z
}.

(** [tarfile.TarInfo(name)]: the standard library's defaults, mode
    [0o644], size 0 and mtime 0. *)
Definition new (name : string) : t :=
  {| name := name; mode := 420; size := 0; mtime := 0 |}.

Definition set_size (ti : t) (v : Z) : t :=
  {| name := name ti; mode := mode ti; size := v; mtime := mtime ti |}.
Definition set_mtime (ti : t) (v : Z) : t :=
  {| name := name ti; mode := mode ti; size := size ti; mtime := v |}.
Definition set_mode (ti : t) (v : Z) : t :=
  {| name := name ti; mode := v; size := size ti; mtime := mtime ti |}.
End TarInfo.

(** Truth value of an int-or-None, as [if entry.mtime:] tests it. *)
Definition truthy (v : option Z) : bool :=
  match v with
  | None => false
  | Some n => negb (n =? 0)
  end.

Definition tarinfo_from_libarchive_entry (entry : Entry.t) : TarInfo.t :=
  let ti := TarInfo.new (Entry.pathname entry) in
  let ti := TarInfo.set_size ti (Entry.size entry) in
  let ti :=
    match Entry.mtime entry with
    | Some v => if truthy (Some v) then TarInfo.set_mtime ti v else ti
    | None => ti
    end in
  let ti :=
    if truthy (Some (Entry.mode entry))
    then TarInfo.set_mode ti (Entry.mode entry) else ti in
  ti.

(** ** [extract_to_stdout] *)

(** What the run reads from outside: the lines of [sys.stdin], the lines of
    a named text file ([None]: it cannot be opened), the entries of an
    archive in the backend's order ([None]: it cannot be opened). *)
Record environment : Type := mkEnvironment {
  stdin : list string;
  open : string -> option (list string);
  file_reader : string -> option (list Entry.t)
}.

(** The [tqdm] bar, as the program drives it: its constructor arguments and
    the number of [update()] calls it has received. *)
Record tqdm : Type := mkTqdm {
  total : Z;
  disable : bool;
  updates : Z
}.

(** What the run has produced: the mode the tar stream was opened with, the
    [tar.addfile(ti, fileobj)] calls in order, and the bar. *)
Record output : Type := mkOutput {
  tar_mode : string;
  tar : list (TarInfo.t * ArchiveEntryBlocks);
  prog : tqdm
}.

Definition newline : ascii := ascii_of_nat 10.

(** [f.rstrip('\n')]: every trailing newline is removed. *)
Fixpoint rstrip_newline (f : string) : string :=
  match f with
  | EmptyString => EmptyString
  | String c rest =>
      match rstrip_newline rest with
      | EmptyString =>
          if Ascii.eqb c newline then EmptyString else String c EmptyString
      | kept => String c kept
      end
  end.

(** [set(f.rstrip('\n') for f in lines)] *)
Definition path_set (lines : list string) : gset string :=
  list_to_set (map rstrip_newline lines).

(** Lines 137-143. *)
Definition load_files_from (env : environment) (files_from : option string)
  : result (option (gset string)) :=
  match files_from with
  | Some f =>
      if String.eqb f "-" then Ok (Some (path_set (stdin env)))
      else if negb (String.eqb f "") then
        match open env f with
        | Some infile => Ok (Some (path_set infile))
        | None => Raise OSError
        end
      else Ok None
  | None => Ok None
  end.

(** Truth value of a set-or-None, as [if files_from_list:] tests it. *)
Definition nonempty (files_from_list : option (gset string)) : bool :=
  match files_from_list with
  | Some paths => bool_decide (paths ≠ ∅)
  | None => false
  end.

(** Lines 148-151: the pre-pass that counts the entries of every archive. *)
Fixpoint count_entries (env : environment) (archive_files : list string)
    (total : Z) : result Z :=
  match archive_files with
  | [] => Ok total
  | file :: rest =>
      match file_reader env file with
      | Some z => count_entries env rest (total + Z.of_nat (length z))
      | None => Raise ArchiveError
      end
  end.

(** Lines 145-153. *)
Definition compute_total (env : environment) (archive_files : list string)
    (files_from_list : option (gset string)) (show_progress : bool)
  : result Z :=
  if show_progress && nonempty files_from_list then
    Ok (Z.of_nat (size (default ∅ files_from_list)))
  else if show_progress then count_entries env archive_files 0
  else Ok 0.

(** [prog.update()] *)
Definition update (out : output) : output :=
  {| tar_mode := tar_mode out; tar := tar out;
     prog := {| total := total (prog out); disable := disable (prog out);
                updates := updates (prog out) + 1 |} |}.

(** [tar.addfile(ti, ArchiveEntryBlocks(iter(entry.get_blocks())))] *)
Definition addfile (out : output) (ti : TarInfo.t)
    (fileobj : ArchiveEntryBlocks) : output :=
  {| tar_mode := tar_mode out; tar := tar out ++ [(ti, fileobj)];
     prog := prog out |}.

(** Body of the inner [for] of lines 164-171. *)
Definition filtered_entry (files_from_list : gset string) (out : output)
    (entry : Entry.t) : output :=
  if bool_decide (Entry.pathname entry ∉ files_from_list) then update out
  else
    let ti := tarinfo_from_libarchive_entry entry in
    let out := addfile out ti (init (Entry.get_blocks entry)) in
    update out.

(** Body of the inner [for] of lines 175-179. *)
Definition every_entry (out : output) (entry : Entry.t) : output :=
  let ti := tarinfo_from_libarchive_entry entry in
  let out := addfile out ti (init (Entry.get_blocks entry)) in
  update out.

(** The outer [for file in archive_files] (lines 162-163 and 173-174) around
    a given inner body. An archive that cannot be opened aborts the run;
    what was written before stays written. *)
Fixpoint for_archive_files (env : environment)
    (body : output -> Entry.t -> output) (archive_files : list string)
    (out : output) : output * option exn :=
  match archive_files with
  | [] => (out, None)
  | file :: rest =>
      match file_reader env file with
      | Some z => for_archive_files env body rest (fold_left body z out)
      | None => (out, Some ArchiveError)
      end
  end.

(** [extract_to_stdout]. [Raise e]: aborted before the tar stream was
    opened. [Ok (out, Some e)]: aborted while streaming, [out] is what had
    been produced. [Ok (out, None)]: ran to the end. *)
Definition extract_to_stdout (env : environment) (archive_files : list string)
    (files_from : option string) (show_progress : bool)
    (compressed : option string) : result (output * option exn) :=
  files_from_list ← load_files_from env files_from;
  total ← compute_total env archive_files files_from_list show_progress;
  let compressed :=
    match compressed with
    | Some c => if String.eqb c "" then "" else c
    | None => ""
    end%string in
  let mode := ("w|" ++ compressed)%string in
  let out :=
    {| tar_mode := mode; tar := [];
       prog := {| total := total; disable := negb show_progress;
                  updates := 0 |} |} in
  match files_from_list with
  | Some paths =>
      if nonempty (Some paths)
      then Ok (for_archive_files env (filtered_entry paths) archive_files out)
      else Ok (for_archive_files env every_entry archive_files out)
  | None => Ok (for_archive_files env every_entry archive_files out)
  end.

(** ** Concrete data used by the examples *)

(** A [bytes] literal. *)
Definition B (s : string) : bytes := list_byte_of_string s.

(** The chunks of [test_archive_entry_blocks]. *)
Definition hello_world : list bytes := [B "h"; B "el"; B "lo "; B "world"].

Definition entry_named (name : string) : Entry.t :=
  {| Entry.pathname := name; Entry.size := 1; Entry.mtime := Some 1700000000;
     Entry.mode := 0; Entry.get_blocks := [B name] |}.


(** ** Vocabulary of the properties *)

(** The bytes of the held chunk that no call has returned yet: the last
    [cursor] bytes of [curr_block]. *)
Definition held (self : ArchiveEntryBlocks) : bytes :=
  match cursor self, curr_block self with
  | Some c, Some blk => drop (Z.to_nat (len blk - c)) blk
  | _, _ => []
  end.

(** Every byte not returned yet, in order. *)
Definition remaining (self : ArchiveEntryBlocks) : bytes :=
  held self ++ join (blocks self).

(** The cursor invariant as the data model words it. *)
Definition cursor_inv (self : ArchiveEntryBlocks) : Prop :=
  match cursor self, curr_block self with
  | None, _ => True
  | Some c, Some blk => 0 <= c <= len blk
  | Some _, None => False
  end.

(** What the code maintains: a held offset is never 0, because line 62
    resets a non-positive cursor to None. *)
Definition well_formed (self : ArchiveEntryBlocks) : Prop :=
  match cursor self, curr_block self with
  | None, _ => True
  | Some c, Some blk => 0 < c <= len blk
  | Some _, None => False
  end.

(** The states a reader passes through: fresh, after an iteration of the
    loop of [read] (which runs only while [retrieved_size < size]), or after
    a [read] that returned. *)
Inductive reachable : ArchiveEntryBlocks -> Prop :=
| reachable_init (chunks : list bytes) : reachable (init chunks)
| reachable_iter (self self' : ArchiveEntryBlocks) (size retrieved : Z)
    (piece : bytes) (retrieved' : Z) :
    reachable self ->
    retrieved < size ->
    loop_body size self retrieved = Ok (Some (self', piece, retrieved')) ->
    reachable self'
| reachable_read (self self' : ArchiveEntryBlocks) (size : option Z)
    (r : bytes) :
    reachable self -> read size self = Ok (r, self') -> reachable self'.

Definition total_requested (sizes : list Z) : Z := fold_right Z.add 0 sizes.

(** The results of the calls whose requested size is not 0. *)
Fixpoint nonzero_results (sizes : list (option Z)) (rs : list bytes)
  : list bytes :=
  match sizes, rs with
  | size :: sizes', r :: rs' =>
      if bool_decide (size = Some 0) then nonzero_results sizes' rs'
      else r :: nonzero_results sizes' rs'
  | _, _ => []
  end.


(** All entries of all archives, in archive order then native order, when
    every archive opens. *)
Fixpoint entries_of (env : environment) (archive_files : list string)
  : option (list Entry.t) :=
  match archive_files with
  | [] => Some []
  | file :: rest =>
      z ← file_reader env file;
      zs ← entries_of env rest;
      Some (z ++ zs)
  end.

(** Iterations still ahead of the loop, short of the one that sees
    [StopIteration]. *)
Definition pending (self : ArchiveEntryBlocks) : nat :=
  (length (blocks self) + match cursor self with Some _ => 1 | None => 0 end)%nat.

(** The reader of the test after [read(4)]: it holds [b"lo "] with two bytes
    to go. *)
Definition after_hell : ArchiveEntryBlocks :=
  {| blocks := [B "world"]; curr_block := Some (B "lo "); cursor := Some 2 |}.

(** A sharper form of the invariant: a held chunk has had at least one byte
    returned and has at least one byte to go. *)
Definition strictly_inside (self : ArchiveEntryBlocks) : Prop :=
  match cursor self, curr_block self with
  | None, _ => True
  | Some c, Some blk => 0 < c < len blk
  | Some _, None => False
  end.

(** A requested size that is an integer and not negative. *)
Definition nonnegative (size : option Z) : Prop :=
  match size with
  | Some n => 0 <= n
  | None => False
  end.

(** The reader of the test after [read(1)], [read(2)]: at a chunk boundary,
    with [b"lo "] and [b"world"] to come. *)
Definition after_h_el : ArchiveEntryBlocks :=
  {| blocks := [B "lo "; B "world"]; curr_block := Some (B "el");
     cursor := None |}.

(** A second archive and an environment in which one archive is missing. *)
Definition two_archives_env : environment :=
  {| stdin := [String newline ""; String newline (String newline "")];
     open := fun f =>
       if String.eqb f "list.txt"
       then Some ["b" +:+ String newline ""; "d"; "b"]
       else None;
     file_reader := fun f =>
       if String.eqb f "abc.7z"
       then Some [entry_named "a"; entry_named "b"; entry_named "c"]
       else if String.eqb f "de.7z"
       then Some [entry_named "d"; entry_named "e"]
       else None |}.

(** * Properties *)

(** ** Slices *)

Lemma py_slice_whole (blk : bytes) :
  py_slice blk (Some (- len blk)) None = blk.
Proof.
  unfold py_slice, slice_index, len.
  destruct (Z.ltb_spec (- Z.of_nat (length blk)) 0).
  - replace (Z.max _ 0) with 0 by lia. rewrite Z.sub_0_r, Nat2Z.id.
    simpl. apply take_ge. lia.
  - replace (Z.min _ _) with 0 by lia. rewrite Z.sub_0_r, Nat2Z.id.
    simpl. apply take_ge. lia.
Qed.

Lemma py_slice_tail (blk : bytes) (c : Z) :
  0 < c <= len blk ->
  py_slice blk (Some (- c)) None = drop (Z.to_nat (len blk - c)) blk.
Proof.
  unfold py_slice, slice_index, len. intros Hc.
  destruct (Z.ltb_spec (- c) 0); [|lia].
  replace (Z.max _ 0) with (Z.of_nat (length blk) - c) by lia.
  apply take_ge. rewrite length_drop. lia.
Qed.

Lemma py_slice_mid (blk : bytes) (p c : Z) :
  0 < c -> c < p -> p <= len blk ->
  py_slice blk (Some (- p)) (Some (- c))
  = take (Z.to_nat (p - c)) (drop (Z.to_nat (len blk - p)) blk).
Proof.
  unfold py_slice, slice_index, len. intros Hc Hp Hl.
  destruct (Z.ltb_spec (- p) 0); [|lia].
  destruct (Z.ltb_spec (- c) 0); [|lia].
  replace (Z.max (- p + _) 0) with (Z.of_nat (length blk) - p) by lia.
  replace (Z.max (- c + _) 0) with (Z.of_nat (length blk) - c) by lia.
  f_equal. lia.
Qed.

Lemma join_snoc (cbuf : list bytes) (piece : bytes) :
  join (cbuf ++ [piece]) = join cbuf ++ piece.
Proof. unfold join. rewrite concat_app. simpl. by rewrite app_nil_r. Qed.

Lemma len_app (x y : bytes) : len (x ++ y) = len x + len y.
Proof. unfold len. rewrite length_app. lia. Qed.

Lemma len_nonneg (x : bytes) : 0 <= len x.
Proof. unfold len. lia. Qed.

Lemma take_app_past (h k : bytes) (n : Z) :
  len h <= n ->
  take (Z.to_nat n) (h ++ k) = h ++ take (Z.to_nat (n - len h)) k.
Proof.
  unfold len. intros H. rewrite take_app, take_ge by lia. do 2 f_equal. lia.
Qed.

Lemma drop_app_past (h k : bytes) (n : Z) :
  len h <= n ->
  drop (Z.to_nat n) (h ++ k) = drop (Z.to_nat (n - len h)) k.
Proof.
  unfold len. intros H. rewrite drop_app, drop_ge by lia. simpl. f_equal. lia.
Qed.

Lemma take_app_within (h k : bytes) (n : Z) :
  n <= len h -> take (Z.to_nat n) (h ++ k) = take (Z.to_nat n) h.
Proof.
  unfold len. intros H. rewrite take_app.
  replace (Z.to_nat n - length h)%nat with O by lia.
  by rewrite take_0, app_nil_r.
Qed.

Lemma drop_app_within (h k : bytes) (n : Z) :
  n <= len h -> drop (Z.to_nat n) (h ++ k) = drop (Z.to_nat n) h ++ k.
Proof.
  unfold len. intros H. rewrite drop_app.
  replace (Z.to_nat n - length h)%nat with O by lia. by rewrite drop_0.
Qed.

Lemma len_drop_tail (blk : bytes) (p : Z) :
  0 <= p <= len blk -> len (drop (Z.to_nat (len blk - p)) blk) = p.
Proof. unfold len. intros H. rewrite length_drop. lia. Qed.

(** ** The read loop *)

Lemma read_loop_done (fuel : nat) (size : Z) (self : ArchiveEntryBlocks)
    (cbuf : list bytes) (retrieved : Z) :
  size <= retrieved ->
  read_loop fuel size self cbuf retrieved = Ok (self, cbuf).
Proof.
  intros H. destruct fuel; simpl; destruct (Z.ltb_spec retrieved size); (lia || done).
Qed.

Lemma read_loop_step (fuel : nat) (size : Z) (self : ArchiveEntryBlocks)
    (cbuf : list bytes) (retrieved : Z) :
  retrieved < size ->
  read_loop (S fuel) size self cbuf retrieved
  = match loop_body size self retrieved with
    | Ok None => Ok (self, cbuf)
    | Ok (Some (self', piece, retrieved')) =>
        read_loop fuel size self' (cbuf ++ [piece]) retrieved'
    | Raise e => Raise e
    | OutOfFuel => OutOfFuel
    end.
Proof.
  intros H. simpl. destruct (Z.ltb_spec retrieved size); [|lia].
  destruct (loop_body size self retrieved) as [[[[? ?] ?]|]| |]; reflexivity.
Qed.

Lemma read_loop_spec (size : Z) (fuel : nat) :
  forall (self : ArchiveEntryBlocks) (cbuf : list bytes) (retrieved : Z),
    well_formed self ->
    (pending self < fuel)%nat ->
    exists self' cbuf',
      read_loop fuel size self cbuf retrieved = Ok (self', cbuf')
      /\ join cbuf'
         = join cbuf ++ take (Z.to_nat (size - retrieved)) (remaining self)
      /\ remaining self' = drop (Z.to_nat (size - retrieved)) (remaining self)
      /\ well_formed self'
      /\ (len (remaining self) < size - retrieved ->
          blocks self' = [] /\ cursor self' = None).
Proof.
  induction fuel as [|fuel IH]; intros self cbuf retrieved Hwf Hfuel; [lia|].
  destruct (Z.le_gt_cases size retrieved) as [Hdone|Hmore].
  { exists self, cbuf. rewrite read_loop_done by done.
    replace (Z.to_nat (size - retrieved)) with O by lia.
    rewrite take_0, app_nil_r, drop_0. repeat split; auto.
    all: intros; pose proof (len_nonneg (remaining self)); lia. }
  rewrite read_loop_step by lia.
  destruct self as [blks cur_blk [p|]]; unfold well_formed, pending in *;
    simpl in Hwf, Hfuel.
  - (* a chunk is held *)
    destruct cur_blk as [blk|]; [|done].
    set (self := mkArchiveEntryBlocks blks (Some blk) (Some p)).
    set (h := drop (Z.to_nat (len blk - p)) blk).
    assert (Hh : len h = p) by (apply len_drop_tail; lia).
    assert (Hself : remaining self = h ++ join blks) by reflexivity.
    pose proof (len_nonneg (join blks)) as Hpos.
    unfold loop_body, consume; cbn [self cursor curr_block].
    destruct (Z.leb_spec (retrieved + p - size) 0) as [Hle|Hgt].
    + rewrite py_slice_tail by lia. fold h. fold self.
      destruct (IH (set_cursor self None) (cbuf ++ [h]) (retrieved + p))
        as (self' & cbuf' & Hrun & Hjoin & Hrem & Hwf' & Hshort);
        [done | simpl; lia |].
      assert (Hnext : remaining (set_cursor self None) = join blks)
        by reflexivity.
      rewrite Hnext in Hjoin, Hrem, Hshort. rewrite join_snoc in Hjoin.
      exists self', cbuf'. rewrite Hself, len_app, Hh.
      rewrite take_app_past, drop_app_past, Hh by lia.
      replace (size - (retrieved + p)) with (size - retrieved - p) in * by lia.
      rewrite <- app_assoc in Hjoin.
      split_and!; auto. intros; apply Hshort; lia.
    + rewrite py_slice_mid by lia. fold h. fold self.
      rewrite read_loop_done by lia.
      eexists _, _. split; [reflexivity|].
      rewrite join_snoc, Hself, len_app, Hh.
      rewrite take_app_within, drop_app_within by lia.
      replace (size - retrieved) with (p - (retrieved + p - size)) by lia.
      split_and!; [done | | | intros; lia].
      * unfold remaining, held; cbn [self set_cursor cursor curr_block blocks].
        f_equal. unfold h. rewrite drop_drop. f_equal. lia.
      * unfold well_formed; simpl. lia.
  - (* no chunk is held: the next one is pulled *)
    set (self := mkArchiveEntryBlocks blks cur_blk None).
    destruct blks as [|blk rest].
    + (* StopIteration *)
      exists self, cbuf. unfold loop_body; cbn [self cursor blocks].
      assert (Hself : remaining self = []) by reflexivity.
      rewrite Hself, take_nil, drop_nil, app_nil_r. by split_and!.
    + assert (Hself : remaining self = blk ++ join rest) by reflexivity.
      pose proof (len_nonneg (join rest)) as Hpos.
      pose proof (len_nonneg blk) as Hblk.
      set (pulled := mkArchiveEntryBlocks rest (Some blk) None).
      unfold loop_body, consume; cbn [self cursor blocks curr_block].
      destruct (Z.leb_spec (retrieved + len blk - size) 0) as [Hle|Hgt].
      * rewrite py_slice_whole. fold pulled.
        destruct (IH (set_cursor pulled None) (cbuf ++ [blk])
                    (retrieved + len blk))
          as (self' & cbuf' & Hrun & Hjoin & Hrem & Hwf' & Hshort);
          [done | simpl in *; lia |].
        assert (Hnext : remaining (set_cursor pulled None) = join rest)
          by reflexivity.
        rewrite Hnext in Hjoin, Hrem, Hshort. rewrite join_snoc in Hjoin.
        exists self', cbuf'. rewrite Hself, len_app.
        rewrite take_app_past, drop_app_past by lia.
        replace (size - (retrieved + len blk))
          with (size - retrieved - len blk) in * by lia.
        rewrite <- app_assoc in Hjoin.
        split_and!; auto. intros; apply Hshort; lia.
      * rewrite py_slice_mid by lia. fold pulled.
        rewrite read_loop_done by lia.
        eexists _, _. split; [reflexivity|].
        rewrite join_snoc, Hself, len_app.
        rewrite take_app_within, drop_app_within by lia.
        replace (size - retrieved)
          with (len blk - (retrieved + len blk - size)) by lia.
        rewrite Z.sub_diag. simpl (drop (Z.to_nat 0) blk).
        split_and!; [done | | | intros; lia].
        -- reflexivity.
        -- unfold well_formed; simpl. lia.
Qed.

(** ** One call of [read] *)

Lemma read_negative (size : Z) (self : ArchiveEntryBlocks) :
  size < 0 -> read (Some size) self = _read_all self.
Proof. intros H. unfold read. by destruct (Z.ltb_spec size 0); [|lia]. Qed.

Lemma read_zero (self : ArchiveEntryBlocks) : read (Some 0) self = Ok ([], self).
Proof. reflexivity. Qed.

Lemma read_positive (size : Z) (self : ArchiveEntryBlocks) :
  0 < size ->
  well_formed self ->
  exists self',
    read (Some size) self = Ok (take (Z.to_nat size) (remaining self), self')
    /\ remaining self' = drop (Z.to_nat size) (remaining self)
    /\ well_formed self'
    /\ (len (remaining self) < size ->
        blocks self' = [] /\ cursor self' = None).
Proof.
  intros Hsize Hwf. unfold read.
  destruct (Z.ltb_spec size 0); [lia|].
  destruct (Z.eqb_spec size 0); [lia|].
  destruct (read_loop_spec size (read_fuel self) self [] 0 Hwf)
    as (self' & cbuf' & Hrun & Hjoin & Hrem & Hwf' & Hshort).
  { unfold pending, read_fuel. destruct (cursor self); lia. }
  rewrite Z.sub_0_r in *. simpl in Hjoin.
  exists self'. rewrite Hrun. simpl. rewrite Hjoin. by split_and!.
Qed.

(** Every call of [read] returns, and keeps the reader well formed. *)
Lemma read_well_formed (size : option Z) (self : ArchiveEntryBlocks) :
  well_formed self ->
  exists r self', read size self = Ok (r, self') /\ well_formed self'.
Proof.
  intros Hwf.
  assert (Hall : exists r self', _read_all self = Ok (r, self') /\ well_formed self').
  { eexists _, _. split; [reflexivity|]. exact Hwf. }
  destruct size as [size|]; [|exact Hall].
  destruct (Z.lt_trichotomy size 0) as [Hneg|[->|Hpos]].
  - by rewrite read_negative.
  - eexists _, _. split; [apply read_zero | done].
  - destruct (read_positive size self Hpos Hwf) as (self' & Hrun & _ & Hwf' & _).
    eauto.
Qed.

(** What one iteration does to a well-formed reader: the piece it appends
    is the range [lo, hi) of the held chunk, inside the chunk, and
    [retrieved_size] grows by exactly its length. *)
Lemma loop_body_slice (size retrieved : Z) (self self' : ArchiveEntryBlocks)
    (piece : bytes) (retrieved' : Z) :
  well_formed self ->
  retrieved < size ->
  loop_body size self retrieved = Ok (Some (self', piece, retrieved')) ->
  well_formed self'
  /\ exists blk lo hi,
       curr_block self' = Some blk
       /\ 0 <= lo <= hi /\ hi <= len blk
       /\ piece = take (Z.to_nat (hi - lo)) (drop (Z.to_nat lo) blk)
       /\ retrieved' = retrieved + (hi - lo).
Proof.
  intros Hwf Hmore.
  destruct self as [blks cur_blk [p|]]; unfold well_formed in Hwf; simpl in Hwf;
    unfold loop_body, consume; simpl.
  - destruct cur_blk as [blk|]; [|done].
    destruct (Z.leb_spec (retrieved + p - size) 0) as [Hle|Hgt];
      intros [= <- <- <-].
    + split; [done|]. exists blk, (len blk - p), (len blk).
      rewrite py_slice_tail by lia. simpl. split_and!; try lia; [done|].
      symmetry. apply take_ge. rewrite length_drop. unfold len. lia.
    + split; [unfold well_formed; simpl; lia|].
      exists blk, (len blk - p), (len blk - (retrieved + p - size)).
      rewrite py_slice_mid by lia. simpl. split_and!; try lia; [done|].
      do 2 f_equal. lia.
  - destruct blks as [|blk rest]; [done|].
    pose proof (len_nonneg blk).
    destruct (Z.leb_spec (retrieved + len blk - size) 0) as [Hle|Hgt];
      intros [= <- <- <-].
    + split; [done|]. exists blk, 0, (len blk).
      rewrite py_slice_whole. simpl. split_and!; try lia; [done|].
      symmetry. apply take_ge. unfold len. lia.
    + split; [unfold well_formed; simpl; lia|].
      exists blk, 0, (len blk - (retrieved + len blk - size)).
      rewrite py_slice_mid by lia. simpl. split_and!; try lia; [done|].
      rewrite Z.sub_diag. do 2 f_equal. lia.
Qed.

Lemma reachable_well_formed (self : ArchiveEntryBlocks) :
  reachable self -> well_formed self.
Proof.
  induction 1 as [chunks
                 | self self' size retrieved piece retrieved' _ IH Hmore Hstep
                 | self self' size r _ IH Hrun]; [done | |].
  - by destruct (loop_body_slice _ _ _ _ _ _ IH Hmore Hstep).
  - destruct (read_well_formed size self IH) as (r' & self'' & Hrun' & Hwf).
    congruence.
Qed.

Lemma well_formed_cursor_inv (self : ArchiveEntryBlocks) :
  well_formed self -> cursor_inv self.
Proof.
  unfold well_formed, cursor_inv.
  destruct (cursor self), (curr_block self); auto; lia.
Qed.

(** The loop never runs out of the fuel [read] gives it, from any state. *)
Lemma read_loop_terminates (size : Z) (fuel : nat) :
  forall (self : ArchiveEntryBlocks) (cbuf : list bytes) (retrieved : Z),
    (pending self < fuel)%nat ->
    read_loop fuel size self cbuf retrieved <> OutOfFuel.
Proof.
  induction fuel as [|fuel IH]; intros self cbuf retrieved Hfuel; [lia|].
  destruct (Z.le_gt_cases size retrieved) as [Hdone|Hmore].
  { by rewrite read_loop_done. }
  rewrite read_loop_step by lia.
  destruct self as [blks cur_blk [p|]]; unfold pending in Hfuel; simpl in Hfuel;
    unfold loop_body, consume; simpl.
  - destruct cur_blk as [blk|]; [|done].
    destruct (Z.leb_spec (retrieved + p - size) 0).
    + apply IH. unfold pending; simpl. lia.
    + by rewrite read_loop_done by lia.
  - destruct blks as [|blk rest]; [done|].
    destruct (Z.leb_spec (retrieved + len blk - size) 0).
    + apply IH. unfold pending; simpl in *. lia.
    + by rewrite read_loop_done by lia.
Qed.

Lemma read_terminates (size : option Z) (self : ArchiveEntryBlocks) :
  read size self <> OutOfFuel.
Proof.
  unfold read. set (n := match size with Some n => n | None => -1 end).
  destruct (n <? 0); [done|]. destruct (n =? 0); [done|].
  pose proof (read_loop_terminates n (read_fuel self) self [] 0) as H.
  destruct (read_loop (read_fuel self) n self [] 0) as [[? ?]| |]; try done.
  exfalso. apply H; [|done]. unfold pending, read_fuel. destruct (cursor self); lia.
Qed.

(** ** The repository's test *)

(** [test_archive_entry_blocks], assertion by assertion. *)
Example test_archive_entry_blocks :
  (fst <$> reads [Some (-1)] (init hello_world)) = Ok [B "hello world"]
  /\ (fst <$> reads [Some 1; Some 2; Some (-1)] (init hello_world))
     = Ok [B "h"; B "el"; B "lo world"]
  /\ (fst <$> reads [Some 2; Some 2] (init hello_world)) = Ok [B "he"; B "ll"]
  /\ (fst <$> reads [Some 3; Some 4] (init hello_world))
     = Ok [B "hel"; B "lo w"]
  /\ (fst <$> reads [Some 4; Some 5; Some 5; Some 2] (init hello_world))
     = Ok [B "hell"; B "o wor"; B "ld"; B ""].
Proof. by vm_compute. Qed.

(** ** Sequences of calls *)

Lemma take_add_drop (l : bytes) (n m : Z) :
  0 <= n -> 0 <= m ->
  take (Z.to_nat (n + m)) l
  = take (Z.to_nat n) l ++ take (Z.to_nat m) (drop (Z.to_nat n) l).
Proof.
  intros Hn Hm. rewrite <- (take_drop (Z.to_nat n) l) at 1.
  rewrite take_app, length_take.
  destruct (Nat.le_gt_cases (length l) (Z.to_nat n)) as [Hshort|Hlong].
  - rewrite (take_ge l (Z.to_nat n)) by done.
    rewrite (drop_ge l) by done. rewrite !take_nil.
    by rewrite take_ge by lia.
  - rewrite take_take. f_equal; [f_equal; lia|]. f_equal. lia.
Qed.

Lemma total_requested_nonneg (sizes : list Z) :
  Forall (fun n => 0 < n) sizes -> 0 <= total_requested sizes.
Proof. induction 1; simpl; lia. Qed.

Lemma reads_positive (sizes : list Z) :
  forall self : ArchiveEntryBlocks,
    Forall (fun n => 0 < n) sizes ->
    well_formed self ->
    exists rs self',
      reads (map Some sizes) self = Ok (rs, self')
      /\ join rs = take (Z.to_nat (total_requested sizes)) (remaining self)
      /\ remaining self'
         = drop (Z.to_nat (total_requested sizes)) (remaining self)
      /\ well_formed self'.
Proof.
  induction sizes as [|n sizes IH]; intros self Hpos Hwf.
  - exists [], self. simpl. by rewrite take_0, drop_0.
  - inversion Hpos as [|? ? Hn Hrest]; subst.
    destruct (read_positive n self Hn Hwf) as (self1 & Hrun & Hrem & Hwf1 & _).
    destruct (IH self1 Hrest Hwf1) as (rs & self2 & Hruns & Hjoin & Hrem2 & Hwf2).
    exists (take (Z.to_nat n) (remaining self) :: rs), self2.
    pose proof (total_requested_nonneg sizes Hrest) as Htot.
    cbn [map reads total_requested fold_right]. rewrite Hrun. simpl.
    rewrite Hruns. simpl. split_and!; [done | | | done].
    + unfold join in *. simpl. rewrite Hjoin, Hrem.
      fold (total_requested sizes). by rewrite take_add_drop by lia.
    + rewrite Hrem2, Hrem, drop_drop. fold (total_requested sizes).
      f_equal. lia.
Qed.

(** C1. On a fresh reader over any chunks (empty ones included), successive
    reads of positive sizes return pieces whose concatenation is the
    concatenation of the chunks cut to the smaller of the total requested
    and the total length; once the requests cover the whole content, that
    concatenation is what [read(-1)] returns on a fresh reader over the same
    chunks. *)
Theorem read_positive_sequence (chunks : list bytes) (sizes : list Z) :
  Forall (fun n => 0 < n) sizes ->
  exists rs self',
    reads (map Some sizes) (init chunks) = Ok (rs, self')
    /\ join rs
       = take (Z.to_nat (Z.min (total_requested sizes) (len (join chunks))))
           (join chunks)
    /\ (len (join chunks) <= total_requested sizes ->
        exists drained,
          read (Some (-1)) (init chunks) = Ok (join rs, drained)).
Proof.
  intros Hpos.
  destruct (reads_positive sizes (init chunks) Hpos I)
    as (rs & self' & Hrun & Hjoin & _ & _).
  assert (Hfresh : remaining (init chunks) = join chunks) by reflexivity.
  rewrite Hfresh in Hjoin.
  exists rs, self'. split_and!; [done | |].
  - rewrite Hjoin. unfold len.
    destruct (Z.le_gt_cases (total_requested sizes) (len (join chunks))).
    + by rewrite Z.min_l.
    + rewrite Z.min_r by (unfold len in *; lia).
      rewrite Nat2Z.id, firstn_all. apply take_ge. unfold len in *. lia.
  - intros Hall. eexists. rewrite read_negative by lia.
    unfold _read_all. simpl. rewrite Hjoin, take_ge; [done|].
    unfold len in *. lia.
Qed.

Lemma read_positive_sequence_witness :
  exists rs self',
    reads (map Some [4; 5; 5; 2]) (init [B "h"; []; B "el"; B "lo "; B "world"])
    = Ok (rs, self')
    /\ join rs = B "hello world".
Proof.
  destruct (read_positive_sequence [B "h"; []; B "el"; B "lo "; B "world"]
              [4; 5; 5; 2]) as (rs & self' & Hrun & Hjoin & _).
  - repeat constructor.
  - exists rs, self'. split; [exact Hrun | exact Hjoin].
Defined.

(** ** Negative sizes *)

(** With no chunk held, a negative read returns everything that is left. *)
Lemma read_all_without_held (size : Z) (self : ArchiveEntryBlocks) :
  size < 0 ->
  cursor self = None ->
  exists self',
    read (Some size) self = Ok (remaining self, self')
    /\ remaining self' = [].
Proof.
  intros Hneg Hcur. rewrite read_negative by lia.
  destruct self as [blks cur_blk cur]. simpl in Hcur. subst cur.
  eexists. split; reflexivity.
Qed.

(** C2. The code at a reader that holds part of a chunk: after [read(3)]
    over the single chunk [b"hello"] the bytes [b"lo"] are still to come,
    yet [read(-1)] returns the empty string: [_read_all] joins only the
    chunks not pulled yet and leaves the held tail out. *)
Theorem read_all_skips_held_tail :
  exists self self',
    read (Some 3) (init [B "hello"]) = Ok (B "hel", self)
    /\ remaining self = B "lo"
    /\ read (Some (-1)) self = Ok ([], self')
    /\ remaining self' = B "lo".
Proof. eexists _, _. by vm_compute. Qed.

(** C3. The code after a negative read issued while part of a chunk was
    held: the held tail [b"lo"] was not drained, so the next positive read
    returns it rather than the empty string. *)
Theorem read_after_read_all_not_empty :
  exists self self' self'',
    read (Some 3) (init [B "hello"]) = Ok (B "hel", self)
    /\ read (Some (-1)) self = Ok ([], self')
    /\ read (Some 5) self' = Ok (B "lo", self'').
Proof. eexists _, _, _. by vm_compute. Qed.

(** ** Exhausted readers *)

Lemma read_exhausted (size : option Z) (self : ArchiveEntryBlocks) :
  blocks self = [] -> cursor self = None -> read size self = Ok ([], self).
Proof.
  destruct self as [blks cur_blk cur]. simpl. intros -> ->.
  unfold read. set (n := match size with Some n => n | None => -1 end).
  destruct (Z.ltb_spec n 0); [done|]. destruct (Z.eqb_spec n 0); [done|].
  unfold read_fuel. rewrite read_loop_step by lia. reflexivity.
Qed.

(** C6. A positive read that asks for more than is left returns what is left
    (no exception), and from then on every read, whatever its size, returns
    the empty string. *)
Theorem short_read_then_empty (self : ArchiveEntryBlocks) (size : Z) :
  well_formed self ->
  0 < size ->
  len (remaining self) < size ->
  exists self',
    read (Some size) self = Ok (remaining self, self')
    /\ forall size' : option Z, read size' self' = Ok ([], self').
Proof.
  intros Hwf Hpos Hshort.
  destruct (read_positive size self Hpos Hwf) as (self' & Hrun & _ & _ & Hend).
  destruct (Hend Hshort) as [Hblocks Hcursor].
  exists self'. split.
  - rewrite Hrun, take_ge; [done|]. unfold len in Hshort. lia.
  - intros size'. by apply read_exhausted.
Qed.

Lemma short_read_then_empty_witness :
  exists self',
    read (Some 8) (init [B "wor"; []; B "ld"]) = Ok (B "world", self')
    /\ forall size' : option Z, read size' self' = Ok ([], self').
Proof.
  apply (short_read_then_empty (init [B "wor"; []; B "ld"]) 8).
  - exact I.
  - lia.
  - vm_compute. reflexivity.
Defined.

(** ** Zero-size reads *)

(** C7. [read(0)] returns the empty string and the very same reader, from
    any state whatever; hence dropping the zero-size calls from a sequence
    of calls changes neither the final reader nor the results of the other
    calls, nor whether and how the sequence fails. *)
Theorem read_zero_is_noop (self : ArchiveEntryBlocks)
    (sizes : list (option Z)) :
  read (Some 0) self = Ok ([], self)
  /\ reads (filter (fun size => size <> Some 0) sizes) self
     = match reads sizes self with
       | Ok (rs, self') => Ok (nonzero_results sizes rs, self')
       | Raise e => Raise e
       | OutOfFuel => OutOfFuel
       end.
Proof.
  split; [reflexivity|]. revert self.
  induction sizes as [|size sizes IH]; intros self; [reflexivity|].
  rewrite filter_cons. destruct (decide (size <> Some 0)) as [Hnz|Hz].
  - cbn [reads]. destruct (read size self) as [[r self1]| |]; simpl; try done.
    rewrite IH. destruct (reads sizes self1) as [[rs self2]| |]; simpl; try done.
    by rewrite bool_decide_eq_false_2.
  - assert (size = Some 0) as -> by (destruct (decide (size = Some 0)); tauto).
    cbn [reads]. rewrite read_zero. simpl. rewrite IH.
    destruct (reads sizes self) as [[rs self2]| |]; simpl; try done.
Qed.

(** ** The cursor invariant *)

(** C8. Every state a reader passes through satisfies the cursor invariant:
    no chunk held, or an offset within [0, length of the held chunk]. Every
    [read] from such a state returns and leaves the invariant in place, and
    every slice an iteration takes is a range [lo, hi) inside the held
    chunk, by whose length [retrieved_size] advances. *)
Theorem cursor_invariant_preserved (self : ArchiveEntryBlocks) :
  reachable self ->
  cursor_inv self
  /\ (forall size : option Z,
        exists r self', read size self = Ok (r, self') /\ cursor_inv self')
  /\ (forall (size retrieved : Z) self' piece retrieved',
        retrieved < size ->
        loop_body size self retrieved = Ok (Some (self', piece, retrieved')) ->
        cursor_inv self'
        /\ exists blk lo hi,
             curr_block self' = Some blk
             /\ 0 <= lo <= hi /\ hi <= len blk
             /\ piece = take (Z.to_nat (hi - lo)) (drop (Z.to_nat lo) blk)
             /\ retrieved' = retrieved + (hi - lo)).
Proof.
  intros Hreach. pose proof (reachable_well_formed self Hreach) as Hwf.
  split_and!.
  - by apply well_formed_cursor_inv.
  - intros size.
    destruct (read_well_formed size self Hwf) as (r & self' & Hrun & Hwf').
    exists r, self'. split; [done|]. by apply well_formed_cursor_inv.
  - intros size retrieved self' piece retrieved' Hmore Hstep.
    destruct (loop_body_slice _ _ _ _ _ _ Hwf Hmore Hstep) as [Hwf' Hslice].
    split; [by apply well_formed_cursor_inv | exact Hslice].
Qed.

Lemma cursor_invariant_preserved_witness :
  reachable after_hell
  /\ cursor_inv after_hell
  /\ exists r self', read (Some 5) after_hell = Ok (r, self') /\ cursor_inv self'.
Proof.
  assert (Hreach : reachable after_hell).
  { apply (reachable_read (init hello_world) after_hell (Some 4) (B "hell")).
    - apply reachable_init.
    - vm_compute. reflexivity. }
  destruct (cursor_invariant_preserved after_hell Hreach) as (Hinv & Hread & _).
  split_and!; [exact Hreach | exact Hinv | exact (Hread (Some 5))].
Defined.

(** ** [read(None)] *)

(** C10. [read(None)] is accepted and is [read(-1)]: from every state it
    returns, with the same bytes and the same reader as [read(-1)]. *)
Theorem read_none_is_read_all (self : ArchiveEntryBlocks) :
  read None self = read (Some (-1)) self
  /\ exists r self', read None self = Ok (r, self').
Proof. split; [reflexivity|]. eexists _, _. reflexivity. Qed.

(** ** Metadata *)

(** C5. The header built for an entry: name and size are the entry's; the
    modify-time is the entry's when that is present and not 0, else the
    default of a new [TarInfo]; the mode is the entry's when that is not 0,
    else the default of a new [TarInfo]. *)
Theorem tarinfo_fields (entry : Entry.t) :
  let ti := tarinfo_from_libarchive_entry entry in
  let fresh := TarInfo.new (Entry.pathname entry) in
  TarInfo.name ti = Entry.pathname entry
  /\ TarInfo.size ti = Entry.size entry
  /\ TarInfo.mtime ti
     = match Entry.mtime entry with
       | Some v => if v =? 0 then TarInfo.mtime fresh else v
       | None => TarInfo.mtime fresh
       end
  /\ TarInfo.mode ti
     = if Entry.mode entry =? 0 then TarInfo.mode fresh else Entry.mode entry.
Proof.
  destruct entry as [name sz [mt|] md blks]; unfold tarinfo_from_libarchive_entry;
    simpl.
  - destruct (mt =? 0), (md =? 0); simpl; auto.
  - destruct (md =? 0); simpl; auto.
Qed.

(** ** The orchestrator *)

Lemma update_fields (out : output) :
  tar (update out) = tar out
  /\ updates (prog (update out)) = updates (prog out) + 1
  /\ total (prog (update out)) = total (prog out).
Proof. by split_and!. Qed.


Lemma filtered_entry_skipped (paths : gset string) (out : output)
    (entry : Entry.t) :
  Entry.pathname entry ∉ paths -> filtered_entry paths out entry = update out.
Proof. intros Hnot. unfold filtered_entry. by rewrite bool_decide_eq_true_2. Qed.










(** * Further properties of the code *)

(** ** Byte accounting of [read] *)

(** X1. From a well-formed reader a positive read returns exactly
    [min(size, bytes left)] bytes, and they are the next bytes: what it
    returns followed by what is left afterwards is what was left before. A
    chunk boundary alone never shortens a read. *)
Theorem read_returns_requested_or_rest (self : ArchiveEntryBlocks) (size : Z) :
  well_formed self ->
  0 < size ->
  exists r self',
    read (Some size) self = Ok (r, self')
    /\ len r = Z.min size (len (remaining self))
    /\ r ++ remaining self' = remaining self
    /\ well_formed self'.
Proof.
  intros Hwf Hpos.
  destruct (read_positive size self Hpos Hwf) as (self' & Hrun & Hrem & Hwf' & _).
  eexists _, self'. split; [exact Hrun|]. split_and!; [| |done].
  - unfold len. rewrite length_take. lia.
  - rewrite Hrem. apply take_drop.
Qed.

Lemma read_returns_requested_or_rest_witness :
  exists r self',
    read (Some 4) after_hell = Ok (r, self')
    /\ len r = 4
    /\ r ++ remaining self' = B "o world".
Proof.
  destruct (read_returns_requested_or_rest after_hell 4)
    as (r & self' & Hrun & Hlen & Hcat & _).
  - vm_compute. split; [reflexivity | discriminate].
  - lia.
  - exists r, self'. split_and!; [exact Hrun | exact Hlen | exact Hcat].
Defined.

Lemma read_conserves (size : option Z) (self : ArchiveEntryBlocks) :
  well_formed self ->
  exists r self',
    read size self = Ok (r, self')
    /\ well_formed self'
    /\ r ++ remaining self' ≡ₚ remaining self
    /\ (nonnegative size -> r ++ remaining self' = remaining self).
Proof.
  intros Hwf.
  assert (Hall : exists r self',
    _read_all self = Ok (r, self') /\ well_formed self'
    /\ r ++ remaining self' ≡ₚ remaining self).
  { eexists _, _. split; [reflexivity|]. split; [exact Hwf|].
    unfold remaining at 1. unfold held. simpl. fold (held self).
    rewrite app_nil_r. unfold remaining. apply Permutation_app_comm. }
  destruct size as [size|].
  2:{ destruct Hall as (r & self' & Hrun & Hwf' & Hperm).
      exists r, self'. split_and!; try done. }
  destruct (Z.lt_trichotomy size 0) as [Hneg|[->|Hpos]].
  - destruct Hall as (r & self' & Hrun & Hwf' & Hperm).
    exists r, self'. rewrite read_negative by lia.
    split_and!; try done. simpl. lia.
  - exists [], self. split_and!; done.
  - destruct (read_positive size self Hpos Hwf) as (self' & Hrun & Hrem & Hwf' & _).
    eexists _, self'. split; [exact Hrun|].
    rewrite Hrem, take_drop. split_and!; done.
Qed.

(** X2. No sequence of [read] calls, whatever the sizes (negative, None,
    zero, positive), loses or duplicates a byte: the results joined, followed
    by what is left at the end, are a rearrangement of what was left at the
    start; when no size is negative or None they are exactly that, in
    order. *)
Theorem reads_conserve_bytes (sizes : list (option Z))
    (self : ArchiveEntryBlocks) :
  well_formed self ->
  exists rs self',
    reads sizes self = Ok (rs, self')
    /\ join rs ++ remaining self' ≡ₚ remaining self
    /\ (Forall nonnegative sizes -> join rs ++ remaining self' = remaining self).
Proof.
  revert self. induction sizes as [|size sizes IH]; intros self Hwf.
  - exists [], self. simpl. split_and!; done.
  - destruct (read_conserves size self Hwf)
      as (r & self1 & Hrun & Hwf1 & Hperm & Hexact).
    destruct (IH self1 Hwf1) as (rs & self2 & Hruns & Hperms & Hexacts).
    exists (r :: rs), self2. cbn [reads]. rewrite Hrun. simpl.
    rewrite Hruns. simpl. split; [done|].
    unfold join in *. simpl. rewrite <- app_assoc. split.
    + by rewrite Hperms.
    + intros Hnn. inversion Hnn as [|? ? Hn Hrest]; subst.
      by rewrite Hexacts, Hexact.
Qed.

Lemma reads_conserve_bytes_witness :
  exists rs self',
    reads [Some 2; Some 0; None; Some 1; Some (-3)] (init hello_world)
    = Ok (rs, self')
    /\ join rs ++ remaining self' ≡ₚ B "hello world".
Proof.
  destruct (reads_conserve_bytes [Some 2; Some 0; None; Some 1; Some (-3)]
              (init hello_world)) as (rs & self' & Hrun & Hperm & _).
  - exact I.
  - exists rs, self'. split; [exact Hrun | exact Hperm].
Defined.

(** ** Negative reads as the code performs them *)

(** X3. At a chunk boundary (no chunk held) a negative read returns
    everything that is left, and every later read, whatever its size,
    returns the empty string. *)
Theorem read_all_at_boundary (self : ArchiveEntryBlocks) (size : Z) :
  cursor self = None ->
  size < 0 ->
  exists self',
    read (Some size) self = Ok (remaining self, self')
    /\ forall size' : option Z, read size' self' = Ok ([], self').
Proof.
  intros Hcur Hneg. rewrite read_negative by lia.
  destruct self as [blks cur_blk cur]. simpl in Hcur. subst cur.
  eexists. split; [reflexivity|].
  intros size'. by apply read_exhausted.
Qed.

Lemma read_all_at_boundary_witness :
  exists self',
    read (Some (-1)) after_h_el = Ok (B "lo world", self')
    /\ forall size' : option Z, read size' self' = Ok ([], self').
Proof.
  apply (read_all_at_boundary after_h_el (-1)).
  - reflexivity.
  - lia.
Defined.

(** Which chunks the loop pulls: a prefix of those left, and the last one
    only because the bytes before it did not reach [size]. *)
Lemma read_loop_pulls (size : Z) (fuel : nat) :
  forall (self self' : ArchiveEntryBlocks) (cbuf cbuf' : list bytes)
         (retrieved : Z),
    well_formed self ->
    read_loop fuel size self cbuf retrieved = Ok (self', cbuf') ->
    exists k : nat,
      blocks self' = drop k (blocks self)
      /\ (k <= length (blocks self))%nat
      /\ ((0 < k)%nat ->
          retrieved + len (held self)
          + len (join (take (k - 1) (blocks self))) < size).
Proof.
  induction fuel as [|fuel IH]; intros self self' cbuf cbuf' retrieved Hwf.
  { simpl. destruct (Z.ltb_spec retrieved size); [done|].
    intros [= <- _]. exists O. split_and!; [done | lia | lia]. }
  destruct (Z.le_gt_cases size retrieved) as [Hdone|Hmore].
  { rewrite read_loop_done by done. intros [= <- _].
    exists O. split_and!; [done | lia | lia]. }
  rewrite read_loop_step by lia.
  destruct self as [blks cur_blk [p|]]; unfold well_formed in Hwf;
    simpl in Hwf; unfold loop_body, consume; simpl.
  - destruct cur_blk as [blk|]; [|done].
    assert (Hheld : len (held (mkArchiveEntryBlocks blks (Some blk) (Some p)))
                    = p) by (apply len_drop_tail; lia).
    rewrite Hheld.
    destruct (Z.leb_spec (retrieved + p - size) 0) as [Hle|Hgt].
    + intros Hrun. apply IH in Hrun; [|done].
      destruct Hrun as (k & Hk & Hkl & Hlast). exists k.
      simpl in Hk, Hkl, Hlast. split_and!; [done | done |].
      intros Hpos. specialize (Hlast Hpos).
      change (held _) with (@nil byte) in Hlast.
      change (len []) with 0 in Hlast. lia.
    + rewrite read_loop_done by lia. intros [= <- _].
      exists O. split_and!; [done | lia | lia].
  - destruct blks as [|blk rest].
    + intros [= <- _]. exists O. split_and!; [done | simpl; lia | lia].
    + pose proof (len_nonneg blk) as Hblk.
      destruct (Z.leb_spec (retrieved + len blk - size) 0) as [Hle|Hgt].
      * intros Hrun. apply IH in Hrun; [|done].
        destruct Hrun as (k & Hk & Hkl & Hlast). exists (S k).
        simpl in Hk, Hkl, Hlast. split_and!; [done | simpl; lia |].
        intros _. change (held _) with (@nil byte). change (len []) with 0.
        replace (S k - 1)%nat with k by lia. destruct k as [|k].
        -- change (len (join _)) with 0. lia.
        -- assert (Hpos : (0 < S k)%nat) by lia. specialize (Hlast Hpos).
           change (held _) with (@nil byte) in Hlast.
           change (len []) with 0 in Hlast.
           replace (S k - 1)%nat with k in Hlast by lia.
           change (join (take (S k) (blk :: rest)))
             with (blk ++ join (take k rest)).
           rewrite len_app. lia.
      * rewrite read_loop_done by lia. intros [= <- _].
        exists 1%nat. split_and!; [done | simpl; lia |].
        intros _. change (held _) with (@nil byte). change (len []) with 0.
        change (len (join _)) with 0. lia.
Qed.

Lemma read_pulls (size : Z) (self self' : ArchiveEntryBlocks) (r : bytes) :
  well_formed self ->
  0 < size ->
  read (Some size) self = Ok (r, self') ->
  exists k : nat,
    blocks self' = drop k (blocks self)
    /\ (k <= length (blocks self))%nat
    /\ ((0 < k)%nat ->
        len (held self) + len (join (take (k - 1) (blocks self))) < size).
Proof.
  intros Hwf Hpos. unfold read.
  destruct (Z.ltb_spec size 0); [lia|]. destruct (Z.eqb_spec size 0); [lia|].
  destruct (read_loop (read_fuel self) size self [] 0) as [[s1 cbuf1]| |] eqn:Hrun;
    simpl; [|discriminate|discriminate].
  intros [= _ <-]. apply read_loop_pulls in Hrun; [|done].
  destruct Hrun as (k & Hk & Hkl & Hlast). exists k. by split_and!.
Qed.

(** X4. What follows a negative read in general: it returns the chunks not
    pulled yet and keeps the held tail; after it, reads of size zero or
    below return the empty string and change nothing, and a positive read
    returns the first bytes of that held tail. *)
Theorem read_after_negative_read (self : ArchiveEntryBlocks) (size : Z) :
  well_formed self ->
  size < 0 ->
  exists self',
    read (Some size) self = Ok (join (blocks self), self')
    /\ remaining self' = held self
    /\ (forall n, n <= 0 -> read (Some n) self' = Ok ([], self'))
    /\ (forall n, 0 < n ->
          exists self'',
            read (Some n) self' = Ok (take (Z.to_nat n) (held self), self'')
            /\ remaining self'' = drop (Z.to_nat n) (held self)).
Proof.
  intros Hwf Hneg. rewrite read_negative by lia.
  set (self' := {| blocks := []; curr_block := curr_block self;
                   cursor := cursor self |}).
  assert (Hrem : remaining self' = held self).
  { unfold remaining. simpl. by rewrite app_nil_r. }
  exists self'. split_and!; [reflexivity | exact Hrem | |].
  - intros n Hn. destruct (Z.eq_dec n 0) as [->|Hnz]; [reflexivity|].
    by rewrite read_negative by lia.
  - intros n Hn.
    destruct (read_positive n self' Hn Hwf) as (self'' & Hrun & Hrem' & _).
    rewrite Hrem in Hrun, Hrem'. by exists self''.
Qed.

Lemma read_after_negative_read_witness :
  exists self',
    read (Some (-1)) after_hell = Ok (B "world", self')
    /\ remaining self' = B "o "
    /\ exists self'', read (Some 1) self' = Ok (B "o", self'').
Proof.
  destruct (read_after_negative_read after_hell (-1))
    as (self' & Hrun & Hrem & _ & Hpos).
  - vm_compute. split; [reflexivity | discriminate].
  - lia.
  - exists self'. split_and!; [exact Hrun | exact Hrem |].
    destruct (Hpos 1) as (self'' & Hrun1 & _); [lia|].
    exists self''. exact Hrun1.
Defined.

(** ** Laziness *)

(** X6. A positive read pulls chunks from the iterator only while it still
    lacks bytes: the chunks it leaves are a suffix of those it found, and
    the last chunk it pulled was pulled because the held tail and the chunks
    before it did not reach [size]. In particular a request the held tail
    can serve pulls nothing. *)
Theorem read_pulls_only_what_it_needs (self : ArchiveEntryBlocks) (size : Z) :
  well_formed self ->
  0 < size ->
  exists r self' (k : nat),
    read (Some size) self = Ok (r, self')
    /\ blocks self' = drop k (blocks self)
    /\ (k <= length (blocks self))%nat
    /\ ((0 < k)%nat ->
        len (held self) + len (join (take (k - 1) (blocks self))) < size)
    /\ (size <= len (held self) -> blocks self' = blocks self).
Proof.
  intros Hwf Hpos.
  destruct (read_well_formed (Some size) self Hwf) as (r & self' & Hrun & _).
  destruct (read_pulls size self self' r Hwf Hpos Hrun) as (k & Hk & Hkl & Hlast).
  exists r, self', k. split_and!; try done.
  intros Hserved. destruct k as [|k]; [done|].
  assert (Hk0 : (0 < S k)%nat) by lia. specialize (Hlast Hk0).
  pose proof (len_nonneg (join (take (S k - 1) (blocks self)))). lia.
Qed.

Lemma read_pulls_only_what_it_needs_witness :
  exists r self',
    read (Some 2) after_hell = Ok (r, self')
    /\ blocks self' = [B "world"].
Proof.
  destruct (read_pulls_only_what_it_needs after_hell 2)
    as (r & self' & k & Hrun & _ & _ & _ & Hsame).
  - vm_compute. split; [reflexivity | discriminate].
  - lia.
  - exists r, self'. split; [exact Hrun|]. apply Hsame.
    vm_compute. discriminate.
Defined.

(** ** The sharper cursor invariant *)

Lemma read_loop_invariant (P : ArchiveEntryBlocks -> Prop) (size : Z) :
  (forall self self' retrieved piece retrieved',
     P self -> retrieved < size ->
     loop_body size self retrieved = Ok (Some (self', piece, retrieved')) ->
     P self') ->
  forall (fuel : nat) (self self' : ArchiveEntryBlocks)
         (cbuf cbuf' : list bytes) (retrieved : Z),
    P self ->
    read_loop fuel size self cbuf retrieved = Ok (self', cbuf') ->
    P self'.
Proof.
  intros Hstep. induction fuel as [|fuel IH];
    intros self self' cbuf cbuf' retrieved HP.
  { simpl. destruct (retrieved <? size); [done|]. by intros [= <- _]. }
  destruct (Z.le_gt_cases size retrieved) as [Hdone|Hmore].
  { rewrite read_loop_done by done. by intros [= <- _]. }
  rewrite read_loop_step by lia.
  destruct (loop_body size self retrieved) as [[[[s1 p1] r1]|]| |] eqn:Hbody;
    try done.
  - intros Hrun. eapply IH; [|exact Hrun]. eapply Hstep; eauto.
  - by intros [= <- _].
Qed.

Lemma loop_body_strictly_inside (size retrieved : Z)
    (self self' : ArchiveEntryBlocks) (piece : bytes) (retrieved' : Z) :
  strictly_inside self ->
  retrieved < size ->
  loop_body size self retrieved = Ok (Some (self', piece, retrieved')) ->
  strictly_inside self'.
Proof.
  intros Hin Hmore.
  destruct self as [blks cur_blk [p|]]; unfold strictly_inside in Hin;
    simpl in Hin; unfold loop_body, consume; simpl.
  - destruct cur_blk as [blk|]; [|done].
    destruct (Z.leb_spec (retrieved + p - size) 0);
      intros [= <- <- <-]; unfold strictly_inside; simpl; [done | lia].
  - destruct blks as [|blk rest]; [done|].
    destruct (Z.leb_spec (retrieved + len blk - size) 0);
      intros [= <- <- <-]; unfold strictly_inside; simpl; [done | lia].
Qed.

Lemma read_strictly_inside (size : option Z) (self self' : ArchiveEntryBlocks)
    (r : bytes) :
  strictly_inside self -> read size self = Ok (r, self') -> strictly_inside self'.
Proof.
  intros Hin. unfold read.
  set (n := match size with Some n => n | None => -1 end).
  destruct (n <? 0); [by intros [= _ <-]|].
  destruct (n =? 0); [by intros [= _ <-]|].
  destruct (read_loop (read_fuel self) n self [] 0) as [[s1 cbuf1]| |] eqn:Hrun;
    simpl; [|discriminate|discriminate].
  intros [= _ <-].
  eapply (read_loop_invariant strictly_inside n); [|exact Hin|exact Hrun].
  intros; eapply loop_body_strictly_inside; eauto.
Qed.

(** X5. In every state a reader passes through, a held offset is strictly
    between 0 and the length of the held chunk: the cursor is never 0 and
    never the whole chunk, so a held chunk always has bytes already returned
    and bytes still to return. *)
Theorem cursor_strictly_inside (self : ArchiveEntryBlocks) :
  reachable self ->
  strictly_inside self
  /\ forall c, cursor self = Some c ->
       exists blk, curr_block self = Some blk
                   /\ 0 < c < len blk /\ held self <> [] /\ held self <> blk.
Proof.
  intros Hreach.
  assert (Hin : strictly_inside self).
  { induction Hreach as [chunks
                        | self self' size retrieved piece retrieved' _ IH Hmore Hstep
                        | self self' size r _ IH Hrun]; [done | |].
    - eapply loop_body_strictly_inside; eauto.
    - eapply read_strictly_inside; eauto. }
  split; [exact Hin|]. intros c Hc. unfold strictly_inside, held in *.
  rewrite Hc in *. destruct (curr_block self) as [blk|]; [|done].
  exists blk. split_and!; try done; try lia.
  - intros Hnil. apply (f_equal (@length byte)) in Hnil.
    rewrite length_drop in Hnil. unfold len in *. simpl in Hnil. lia.
  - intros Hall. apply (f_equal (@length byte)) in Hall.
    rewrite length_drop in Hall. unfold len in *. lia.
Qed.

Lemma cursor_strictly_inside_witness :
  reachable after_hell /\ strictly_inside after_hell.
Proof.
  assert (Hreach : reachable after_hell).
  { apply (reachable_read (init hello_world) after_hell (Some 4) (B "hell")).
    - apply reachable_init.
    - vm_compute. reflexivity. }
  split; [exact Hreach|].
  exact (proj1 (cursor_strictly_inside after_hell Hreach)).
Defined.

(** ** When [read] fails *)

Lemma read_loop_returns (size : Z) (fuel : nat) :
  forall (self : ArchiveEntryBlocks) (cbuf : list bytes) (retrieved : Z),
    (cursor self = None \/ is_Some (curr_block self)) ->
    (pending self < fuel)%nat ->
    exists self' cbuf', read_loop fuel size self cbuf retrieved = Ok (self', cbuf').
Proof.
  induction fuel as [|fuel IH]; intros self cbuf retrieved Hblk Hfuel; [lia|].
  destruct (Z.le_gt_cases size retrieved) as [Hdone|Hmore].
  { rewrite read_loop_done by done. eauto. }
  rewrite read_loop_step by lia.
  destruct self as [blks cur_blk [p|]]; unfold pending in Hfuel; simpl in *;
    unfold loop_body, consume; simpl.
  - destruct Hblk as [|[blk ->]]; [done|].
    destruct (Z.leb_spec (retrieved + p - size) 0).
    + apply IH; [by left | unfold pending; simpl; lia].
    + rewrite read_loop_done by lia. eauto.
  - destruct blks as [|blk rest]; [eauto|].
    destruct (Z.leb_spec (retrieved + len blk - size) 0).
    + apply IH; [by left | unfold pending; simpl in *; lia].
    + rewrite read_loop_done by lia. eauto.
Qed.

(** X7. The outcomes of [read], from any state at all: it raises, and then
    [TypeError], exactly when the size is positive and a cursor is set while
    no chunk is held (a state no call produces); in every other case the
    loop ends and [read] returns. *)
Theorem read_outcome (size : option Z) (self : ArchiveEntryBlocks) :
  let n := match size with Some n => n | None => -1 end in
  if decide (0 < n /\ is_Some (cursor self) /\ curr_block self = None)
  then read size self = Raise TypeError
  else exists r self', read size self = Ok (r, self').
Proof.
  intros n. destruct (decide _) as [(Hpos & [c Hc] & Hnone)|Hok].
  - unfold read. fold n.
    destruct (Z.ltb_spec n 0); [lia|]. destruct (Z.eqb_spec n 0); [lia|].
    unfold read_fuel. rewrite read_loop_step by lia.
    unfold loop_body, consume. by rewrite Hc, Hnone.
  - unfold read. fold n.
    destruct (Z.ltb_spec n 0); [unfold _read_all; eauto|].
    destruct (Z.eqb_spec n 0); [eauto|].
    destruct (read_loop_returns n (read_fuel self) self [] 0)
      as (self' & cbuf' & Hrun).
    + destruct (cursor self) as [c|] eqn:Hc; [|by left]. right.
      destruct (curr_block self) as [blk|] eqn:Hb; [eauto|].
      exfalso. apply Hok. split_and!; [lia | eauto | done].
    + unfold pending, read_fuel. destruct (cursor self); lia.
    + rewrite Hrun. simpl. eauto.
Qed.

(** ** The filter list *)

Lemma rstrip_newline_no_trailing (line : string) :
  forall s : string, rstrip_newline line <> s +:+ String newline "".
Proof.
  induction line as [|c rest IH]; intros s; simpl.
  - by destruct s.
  - destruct (rstrip_newline rest) as [|k kept] eqn:Hrest.
    + destruct (Ascii.eqb_spec c newline) as [->|Hc]; [by destruct s|].
      destruct s as [|c' s']; simpl; [by intros [= ->]|].
      intros [= _ Hs]. by destruct s'.
    + destruct s as [|c' s']; simpl; [done|].
      intros [= _ Hs]. by apply (IH s').
Qed.

Lemma elem_of_path_set (lines : list string) (name : string) :
  name ∈ path_set lines <->
  exists line, line ∈ lines /\ rstrip_newline line = name.
Proof.
  unfold path_set. rewrite elem_of_list_to_set.
  change (map rstrip_newline lines) with (rstrip_newline <$> lines).
  rewrite list_elem_of_fmap. split; intros (line & H1 & H2); eauto.
Qed.

(** X8. Which names the filter set holds: those equal to some listed line
    with its trailing newlines removed. Hence no name ending in a newline is
    ever in the set, and an entry with such a name is skipped by the
    filtered loop (its counter still advances), however the list spells
    it. *)
Theorem path_set_names (lines : list string) :
  (forall name : string,
     name ∈ path_set lines <->
     exists line, line ∈ lines /\ rstrip_newline line = name)
  /\ (forall s : string, s +:+ String newline "" ∉ path_set lines)
  /\ (forall (out : output) (entry : Entry.t) (s : string),
        Entry.pathname entry = s +:+ String newline "" ->
        filtered_entry (path_set lines) out entry = update out).
Proof.
  pose proof (elem_of_path_set lines) as Hin.
  assert (Hno : forall s : string, s +:+ String newline "" ∉ path_set lines).
  { intros s [line [_ Hline]]%Hin. by apply rstrip_newline_no_trailing in Hline. }
  split_and!; [exact Hin | exact Hno |].
  intros out entry s Hname. apply filtered_entry_skipped. rewrite Hname. apply Hno.
Qed.









(** ** Archives that do not open *)

Lemma count_entries_fails (env : environment) (archive_files : list string) :
  forall n : Z,
    entries_of env archive_files = None ->
    count_entries env archive_files n = Raise ArchiveError.
Proof.
  induction archive_files as [|file rest IH]; intros n; simpl; [done|].
  destruct (file_reader env file) as [z|]; [|done]. simpl.
  destruct (entries_of env rest) as [zs|] eqn:Hrest; [done|].
  intros _. by apply IH.
Qed.


(** X11. With progress shown and no effective filter (none, or an empty
    set), an archive that does not open is met by the counting pre-pass: the
    run raises before the tar stream is opened, so nothing at all is
    written, wherever in the list the archive stands. *)
Theorem prepass_aborts_before_output (env : environment)
    (archive_files : list string) (files_from : option string)
    (compressed : option string) (files_from_list : option (gset string)) :
  load_files_from env files_from = Ok files_from_list ->
  nonempty files_from_list = false ->
  entries_of env archive_files = None ->
  extract_to_stdout env archive_files files_from true compressed
  = Raise ArchiveError.
Proof.
  intros Hload Hempty Hfail. unfold extract_to_stdout. rewrite Hload.
  cbn [mbind result_bind]. unfold compute_total. rewrite Hempty. simpl.
  by rewrite count_entries_fails.
Qed.

Lemma prepass_aborts_before_output_witness :
  extract_to_stdout two_archives_env ["abc.7z"; "de.7z"; "missing.7z"] None
    true None = Raise ArchiveError.
Proof.
  apply (prepass_aborts_before_output two_archives_env
           ["abc.7z"; "de.7z"; "missing.7z"] None None None);
    reflexivity.
Defined.



(** X13. A named filter list that cannot be opened ends the run with
    [OSError] before any archive is looked at: the outcome is the same
    whatever the archives are, missing ones included, and whatever the other
    options. *)
Theorem unreadable_filter_list_aborts_first (env : environment)
    (archive_files : list string) (f : string) (show_progress : bool)
    (compressed : option string) :
  f <> "-" ->
  f <> "" ->
  open env f = None ->
  extract_to_stdout env archive_files (Some f) show_progress compressed
  = Raise OSError.
Proof.
  intros Hdash Hempty Hopen. unfold extract_to_stdout, load_files_from.
  rewrite (proj2 (String.eqb_neq f "-")) by done.
  rewrite (proj2 (String.eqb_neq f "")) by done.
  simpl. by rewrite Hopen.
Qed.

Lemma unreadable_filter_list_aborts_first_witness :
  extract_to_stdout two_archives_env ["missing.7z"] (Some "nolist.txt") true
    None = Raise OSError.
Proof.
  apply (unreadable_filter_list_aborts_first two_archives_env ["missing.7z"]
           "nolist.txt" true None).
  - discriminate.
  - discriminate.
  - reflexivity.
Defined.

(** ** Headers the mapper can and cannot produce *)

(** X14. Because a new [TarInfo] starts with mode [0o644] and mtime 0, the
    header of an entry never has mode 0 (a source mode of 0 comes out as
    [0o644]), and its mtime is the entry's when it has one and 0 when it has
    none: for mtime the test on zero changes nothing. *)
Theorem tarinfo_mode_and_mtime (entry : Entry.t) :
  let ti := tarinfo_from_libarchive_entry entry in
  TarInfo.mode ti <> 0
  /\ (Entry.mode entry = 0 -> TarInfo.mode ti = 420)
  /\ TarInfo.mtime ti = default 0 (Entry.mtime entry).
Proof.
  destruct entry as [name sz [mt|] md blks]; unfold tarinfo_from_libarchive_entry;
    simpl.
  - destruct (Z.eqb_spec mt 0), (Z.eqb_spec md 0); simpl; subst;
      split_and!; done.
  - destruct (Z.eqb_spec md 0); simpl; subst; split_and!; done.
Qed.

Lemma tarinfo_mode_and_mtime_witness :
  TarInfo.mode (tarinfo_from_libarchive_entry (entry_named "a")) = 420.
Proof.
  apply (tarinfo_mode_and_mtime (entry_named "a")). reflexivity.
Defined.

Lemma path_set_names_witness :
  filtered_entry
    (path_set ["x" +:+ String newline (String newline ""); "x"])
    {| tar_mode := "w|"; tar := [];
       prog := {| total := 0; disable := true; updates := 0 |} |}
    (entry_named ("x" +:+ String newline ""))
  = {| tar_mode := "w|"; tar := [];
       prog := {| total := 0; disable := true; updates := 1 |} |}.
Proof.
  apply (proj2 (proj2 (path_set_names
                         ["x" +:+ String newline (String newline ""); "x"]))
           {| tar_mode := "w|"; tar := [];
              prog := {| total := 0; disable := true; updates := 0 |} |}
           (entry_named ("x" +:+ String newline "")) "x").
  reflexivity.
Defined.
